(** * gOASper: the Python layer and the Gosper-curve generator

    A shallow embedding of [python/generate_gosper.py] and of the [Layout]
    wrapper class of [python/goasper/__init__.py], with the parts of the
    layout engine that the specification describes and the sources do not
    contain modelled from the specification's words. *)

From Stdlib Require Import ZArith List Bool Lia String Ascii Floats.
From Stdlib Require Import Strings.Byte.
From Stdlib Require Import Reals Lra Relations.
Import ListNotations.

Set Warnings "-inexact-float".
Close Scope R_scope.

(** ** generate_gosper.py *)

Module Gosper.

Local Open Scope string_scope.

Definition RULE_A : string := "A-B--B+A++AA+B-".
Definition RULE_B : string := "+A-BB--B-A++A+B".
Definition ANGLE_DEG : float := 60.0%float.

(** The body of [for ch in s]: the list [out] after the loop has run over
    the whole of [s]. *)
Fixpoint rewrite_chars (s : string) : list string :=
  match s with
  | EmptyString => []
  | String ch rest =>
      (if Ascii.eqb ch "A" then RULE_A
       else if Ascii.eqb ch "B" then RULE_B
       else String ch EmptyString) :: rewrite_chars rest
  end.

(** [sep.join(out)] *)
Definition join (sep : string) (out : list string) : string :=
  String.concat sep out.

(** [for _ in range(order)]: [n] rounds of rewriting. *)
Fixpoint rewrite_rounds (n : nat) (s : string) : string :=
  match n with
  | O => s
  | S k => rewrite_rounds k (join EmptyString (rewrite_chars s))
  end.

(** [range(order)] is empty for a negative [order], as [Z.to_nat] is 0. *)
Definition lsystem_instructions (order : Z) : string :=
  rewrite_rounds (Z.to_nat order) "A".

(** Number of characters of [s] that are [A] or [B]. *)
Fixpoint count_AB (s : string) : nat :=
  match s with
  | EmptyString => 0
  | String ch rest =>
      (if Ascii.eqb ch "A" || Ascii.eqb ch "B" then 1 else 0) + count_AB rest
  end.

Section Turtle.

(** numpy's [cos], [sin] and [radians] on binary64 values. *)
Variables np_cos np_sin np_radians : float -> float.

Record turtle := mkTurtle {
  t_x : float;
  t_y : float;
  t_angle : float;
  t_pts : list (float * float)
}.

(** One iteration of [for ch in instr]. *)
Definition turtle_step (turn step : float) (t : turtle) (ch : ascii) : turtle :=
  if Ascii.eqb ch "A" || Ascii.eqb ch "B" then
    let x := (t_x t + step * np_cos (t_angle t))%float in
    let y := (t_y t + step * np_sin (t_angle t))%float in
    mkTurtle x y (t_angle t) (t_pts t ++ [(x, y)])
  else if Ascii.eqb ch "+" then
    mkTurtle (t_x t) (t_y t) (t_angle t + turn)%float (t_pts t)
  else if Ascii.eqb ch "-" then
    mkTurtle (t_x t) (t_y t) (t_angle t - turn)%float (t_pts t)
  else t.

Fixpoint turtle_loop (turn step : float) (instr : string) (t : turtle) : turtle :=
  match instr with
  | EmptyString => t
  | String ch rest => turtle_loop turn step rest (turtle_step turn step t ch)
  end.

Definition turtle_path (instr : string) (step : float) : list (float * float) :=
  let x := 0.0%float in
  let y := 0.0%float in
  let angle := 0.0%float in
  let pts := [(x, y)] in
  let turn := np_radians ANGLE_DEG in
  t_pts (turtle_loop turn step instr (mkTurtle x y angle pts)).

End Turtle.

(** *** fit_to_viewbox

    The arithmetic of [fit_to_viewbox] is the arithmetic of Python's [float]
    (IEEE binary64).  The function is written over the operations it uses,
    and [float_arith] gives them as the program runs them. *)

Inductive exn : Type :=
| ValueError      (* min() / max() of an empty sequence *)
| OverflowError.  (* int too large to convert to float *)

Inductive result (A : Type) : Type :=
| Ok (a : A)
| Raise (e : exn).
Arguments Ok {A} a.
Arguments Raise {A} e.

Definition bind {A B : Type} (r : result A) (k : A -> result B) : result B :=
  match r with
  | Ok a => k a
  | Raise e => Raise e
  end.

Notation "x <- r ;; k" := (bind r (fun x => k))
  (at level 61, r at next level, right associativity).

Class Arith (F : Type) : Type := {
  of_int : Z -> option F;        (* float(n); [None] is OverflowError *)
  add : F -> F -> F;
  sub : F -> F -> F;
  mul : F -> F -> F;
  div : F -> F -> F;
  lt : F -> F -> bool;           (* a < b *)
  lit_1e_9 : F;                  (* the literal 1e-9 *)
  lit_2 : F                      (* the literals 2 and 2.0 *)
}.

Definition float_of_Z (n : Z) : float :=
  SF2Prim (binary_normalize prec emax n 0 false).

#[export] Instance float_arith : Arith float := {
  of_int n := let f := float_of_Z n in
              if PrimFloat.is_infinity f then None else Some f;
  add := PrimFloat.add;
  sub := PrimFloat.sub;
  mul := PrimFloat.mul;
  div := PrimFloat.div;
  lt := PrimFloat.ltb;
  lit_1e_9 := 1e-9%float;
  lit_2 := 2.0%float
}.

Section FitToViewbox.

Context {F : Type} `{Arith F}.

(** [min(xs)]: the first item, replaced by each later item that is smaller. *)
Fixpoint min_from (m : F) (xs : list F) : F :=
  match xs with
  | [] => m
  | x :: rest => min_from (if lt x m then x else m) rest
  end.

Definition py_min (xs : list F) : result F :=
  match xs with
  | [] => Raise ValueError
  | x :: rest => Ok (min_from x rest)
  end.

(** [max(xs)]: the first item, replaced by each later item that is greater. *)
Fixpoint max_from (m : F) (xs : list F) : F :=
  match xs with
  | [] => m
  | x :: rest => max_from (if lt m x then x else m) rest
  end.

Definition py_max (xs : list F) : result F :=
  match xs with
  | [] => Raise ValueError
  | x :: rest => Ok (max_from x rest)
  end.

(** [max(a, b)] *)
Definition max2 (a b : F) : F := if lt a b then b else a.

Definition to_float (n : Z) : result F :=
  match of_int n with
  | Some f => Ok f
  | None => Raise OverflowError
  end.

Definition fit_to_viewbox (points : list (F * F)) (size : Z) (margin : F)
  : result (list (F * F)) :=
  let xs := map fst points in
  let ys := map snd points in
  xmin <- py_min xs ;;
  xmax <- py_max xs ;;
  ymin <- py_min ys ;;
  ymax <- py_max ys ;;
  let w := max2 lit_1e_9 (sub xmax xmin) in
  let h := max2 lit_1e_9 (sub ymax ymin) in
  fsize <- to_float size ;;
  let scale := div (sub fsize (mul lit_2 margin)) (max2 w h) in
  let cx := div (add xmin xmax) lit_2 in
  let cy := div (add ymin ymax) lit_2 in
  Ok (map (fun p : F * F =>
             let (x, y) := p in
             let sx := add (mul (sub x cx) scale) (div fsize lit_2) in
             let sy := add (mul (sub cy y) scale) (div fsize lit_2) in
             (sx, sy)) points).

End FitToViewbox.

End Gosper.

(** ** goasper/__init__.py: the [Layout] wrapper class *)

Module Wrapper.

Section Python.

(** The interpreter's state (the heap with the engine's objects, the file
    system), Python objects and exceptions. *)
Variable World : Type.
Variable Obj : Type.
Variable Exn : Type.

(** A Python computation: it changes the state and returns an object or
    raises. *)
Definition Py (A : Type) : Type := World -> (Exn + A) * World.

Definition ret {A : Type} (a : A) : Py A := fun w => (inr a, w).

Definition bind {A B : Type} (m : Py A) (k : A -> Py B) : Py B :=
  fun w =>
    match m w with
    | (inr a, w') => k a w'
    | (inl e, w') => (inl e, w')
    end.

(** What the wrapper is written against: the class [PyLayout] of the native
    module [goasper._lowlevel], with the builtins it is called with. *)
Class Engine : Type := {
  PyLayout : Py Obj;                       (* _PyLayout() *)
  inner_load_gds : Obj -> Obj -> Py Obj;   (* inner.load_gds(arg) *)
  inner_save_oas : Obj -> Obj -> Py Obj;   (* inner.save_oas(arg) *)
  inner_cell_names : Obj -> Py Obj;        (* inner.cell_names() *)
  str : Obj -> Py Obj;                     (* str(x) *)
  None : Obj
}.

Context {engine : Engine}.

(** An instance of [Layout]: its only attribute. *)
Record Layout : Type := mkLayout { _inner : Obj }.

Definition __init__ : Py Layout :=
  bind PyLayout (fun inner => ret (mkLayout inner)).

Definition load_gds (self : Layout) (path : Obj) : Py Obj :=
  bind (str path) (fun s =>
  bind (inner_load_gds (_inner self) s) (fun _ =>
  ret None)).

Definition save_oas (self : Layout) (path : Obj) : Py Obj :=
  bind (str path) (fun s =>
  bind (inner_save_oas (_inner self) s) (fun _ =>
  ret None)).

Definition cells (self : Layout) : Py Obj :=
  inner_cell_names (_inner self).

(** What a wrapper method makes of an engine call whose result it drops:
    the engine's state and exception as they are, [None] for its result. *)
Definition returning_None (r : (Exn + Obj) * World) : (Exn + Obj) * World :=
  match r with
  | (inr _, w) => (inr None, w)
  | (inl e, w) => (inl e, w)
  end.

(** [f(str(path))]: [str] runs first, then [f] on its result in the state
    [str] left; an exception of [str] ends the call. *)
Definition called_with_str (f : Obj -> World -> (Exn + Obj) * World)
  (path : Obj) (w : World) : (Exn + Obj) * World :=
  match str path w with
  | (inr s, w') => f s w'
  | (inl e, w') => (inl e, w')
  end.

End Python.

Arguments Engine World Obj Exn : clear implicits.
Arguments Layout Obj : clear implicits.
Arguments ret {World Exn A} a _.
Arguments bind {World Exn A B} m k _.
Arguments PyLayout {World Obj Exn Engine} _.
Arguments inner_load_gds {World Obj Exn Engine} _ _ _.
Arguments inner_save_oas {World Obj Exn Engine} _ _ _.
Arguments inner_cell_names {World Obj Exn Engine} _ _.
Arguments str {World Obj Exn Engine} _ _.
Arguments None {World Obj Exn Engine}.
Arguments mkLayout {Obj} _inner.
Arguments _inner {Obj} l.
Arguments __init__ {World Obj Exn engine} _.
Arguments load_gds {World Obj Exn engine} self path _.
Arguments save_oas {World Obj Exn engine} self path _.
Arguments cells {World Obj Exn engine} self _.
Arguments returning_None {World Obj Exn engine} r.
Arguments called_with_str {World Obj Exn engine} f path w.

(** A small engine to run the wrapper on: an object is a string, a list of
    names or [None]; the state is the list of cell names the one engine
    object holds together with the log of the calls the engine received. *)
Module Toy.

Inductive obj : Type :=
| OStr (s : string)
| ONames (l : list string)
| ONone
| OEngine.

Inductive call : Type :=
| CallLoad (arg : obj)
| CallSave (arg : obj)
| CallNames.

Record world : Type := mkWorld { names : list string; log : list call }.

Inductive exn : Type := OSError | TypeError.

(** [load_gds] of the toy engine raises [OSError] on the empty path, stores
    three names on any other string and raises [TypeError] on an argument
    that is no string. *)
Definition toy_load (_ arg : obj) : Py world exn obj :=
  fun w =>
    match arg with
    | OStr EmptyString =>
        (inl OSError, mkWorld (names w) (log w ++ [CallLoad arg]))
    | OStr _ =>
        (inr ONone,
         mkWorld ["top"; "alu"; "via"]%string (log w ++ [CallLoad arg]))
    | _ => (inl TypeError, mkWorld (names w) (log w ++ [CallLoad arg]))
    end.

(** Python's [str] on the toy's objects: a string is returned as it is,
    [None] gives the text [None], a list of names its display with each
    name in single quotes (names here hold no quote or backslash).  The
    text of an engine object holds its address in the real interpreter; the
    toy has none to show. *)
Definition toy_str (x : obj) : obj :=
  match x with
  | OStr s => OStr s
  | ONone => OStr "None"
  | ONames l =>
      OStr ("[" ++ String.concat ", " (map (fun n => "'" ++ n ++ "'") l)
            ++ "]")%string
  | OEngine => OStr "<PyLayout object>"
  end.

#[export] Instance toy : Engine world obj exn := {
  PyLayout := fun w => (inr OEngine, mkWorld [] (log w));
  inner_load_gds := toy_load;
  inner_save_oas _ arg := fun w =>
    (inr (OStr "written"), mkWorld (names w) (log w ++ [CallSave arg]));
  inner_cell_names _ := fun w =>
    (inr (ONames (names w)), mkWorld (names w) (log w ++ [CallNames]));
  str x := fun w => (inr (toy_str x), w);
  None := ONone
}.

End Toy.

End Wrapper.

(** ** The layout engine behind the wrapper

    The native module [goasper._lowlevel] is not among the sources: what
    follows is written from the specification (sections 3, 4.2 and 4.3). *)

Module Engine.

(** *** Transform algebra (specification, sections 3 and 4.3) *)

(** Modelled from the spec: the [Transform] of the absent engine, with a
    translation vector in database units, a rotation angle in real degrees,
    a mirror-about-x-axis flag and a magnification factor. *)
Record Transform : Type := mkTransform {
  translation : Z * Z;
  rotation : R;
  mirror : bool;
  magnification : R
}.

(** Modelled from the spec: a point of the absent transform algebra; a
    rotation by an arbitrary angle leaves the integer grid, so coordinates
    are real. *)
Definition point : Type := (R * R)%type.

(** Modelled from the spec: the rotation angle is in degrees. *)
Definition radians (deg : R) : R := (deg * PI / 180)%R.

(** Modelled from the spec: the first step of the absent [applyToPoint],
    "magnification scales both axes uniformly". *)
Definition magnify (t : Transform) (p : point) : point :=
  (magnification t * fst p, magnification t * snd p)%R.

(** Modelled from the spec: the second step, the mirror about the x axis. *)
Definition mirror_x (t : Transform) (p : point) : point :=
  if mirror t then (fst p, - snd p)%R else p.

(** Modelled from the spec: the third step, the rotation by the angle. *)
Definition rotate (t : Transform) (p : point) : point :=
  let a := radians (rotation t) in
  (fst p * cos a - snd p * sin a, fst p * sin a + snd p * cos a)%R.

(** Modelled from the spec: the last step, the translation. *)
Definition translate (t : Transform) (p : point) : point :=
  (fst p + IZR (fst (translation t)), snd p + IZR (snd (translation t)))%R.

(** Modelled from the spec: the absent [applyToPoint], which "applies
    magnification, mirror, rotation, then translation, in that fixed
    order". *)
Definition applyToPoint (t : Transform) (p : point) : point :=
  translate t (rotate t (mirror_x t (magnify t p))).

(** The sign the mirror flag gives the ordinate. *)
Definition mirror_sign (t : Transform) : R := (if mirror t then -1 else 1)%R.

(** Modelled from the spec: the [ArrayReference] element of the absent
    engine, "row/column counts and pitch vectors, each instance resolved
    via a shared base transform plus lattice offset". *)
Record ArrayReference : Type := mkArrayReference {
  ar_target : string;
  ar_base : Transform;
  ar_cols : nat;
  ar_rows : nat;
  ar_colVector : Z * Z;
  ar_rowVector : Z * Z
}.

(** Modelled from the spec: the lattice offset of the absent array
    expansion, [col * colVector + row * rowVector]. *)
Definition lattice_offset (a : ArrayReference) (row col : nat) : Z * Z :=
  (Z.of_nat col * fst (ar_colVector a) + Z.of_nat row * fst (ar_rowVector a),
   Z.of_nat col * snd (ar_colVector a) + Z.of_nat row * snd (ar_rowVector a))%Z.

(** Modelled from the spec: the base transform followed by a translation
    by [d]; the offset is "expressed in the un-rotated lattice basis", so it
    is added to the translation as it is. *)
Definition translated_by (d : Z * Z) (t : Transform) : Transform :=
  mkTransform (fst (translation t) + fst d, snd (translation t) + snd d)%Z
              (rotation t) (mirror t) (magnification t).

(** Modelled from the spec: the expansion of an array reference of the
    absent engine, "an independent instance per lattice cell", row by row. *)
Definition expand (a : ArrayReference) : list Transform :=
  flat_map (fun row =>
    map (fun col => translated_by (lattice_offset a row col) (ar_base a))
        (seq 0 (ar_cols a)))
    (seq 0 (ar_rows a)).

(** Modelled from the spec: where the instances of [a] place the points of
    the referenced cell ("after transform application"). *)
Definition resolve_array (a : ArrayReference) (cell_points : list point)
  : list point :=
  flat_map (fun t => map (applyToPoint t) cell_points) (expand a).

(** *** Layout model (specification, section 3) *)

(** Modelled from the spec: the [Element] variants of the absent engine. *)
Inductive Element : Type :=
| Polygon (points : list (Z * Z)) (layer datatype : Z)
| Path (points : list (Z * Z)) (layer datatype width endcap : Z)
| Box (corner1 corner2 : Z * Z) (layer datatype : Z)
| Text (payload : string) (layer datatype : Z) (anchor : Z * Z) (flags : Z)
| Reference (target : string) (t : Transform)
| ArrayRef (a : ArrayReference).

(** Modelled from the spec: a [Cell] of the absent engine, a name and an
    ordered sequence of elements. *)
Record Cell : Type := mkCell {
  cell_name : string;
  elements : list Element
}.

(** Modelled from the spec: the [Layout] of the absent engine, with the
    library name, the two unit scale factors and the cells in declaration
    order. *)
Record Layout : Type := mkLayout {
  library_name : string;
  units : R * R;
  cells : list Cell
}.

(** *** The Reader's second pass (specification, section 4.2) *)

(** Modelled from the spec: the failure kinds of the absent
    [loadFromStream]; the cyclic-reference error names the cycle. *)
Inductive LoadError : Type :=
| TruncatedStreamError
| InvalidRecordLengthError
| MalformedStructureError
| UnexpectedEndOfStreamError
| CyclicReferenceError (cycle : list string).

(** Modelled from the spec: the [SNAME] target of a [Reference] or
    [ArrayReference] element of the absent engine. *)
Definition target_of (e : Element) : list string :=
  match e with
  | Reference target _ => [target]
  | ArrayRef a => [ar_target a]
  | _ => []
  end.

(** Modelled from the spec: the targets a cell names, in element order. *)
Definition references (c : Cell) : list string :=
  flat_map target_of (elements c).

(** Modelled from the spec: the name-to-index map the absent Reader builds
    in pass one (section 9), as the index of the cell called [name]. *)
Fixpoint index_of (name : string) (cs : list Cell) : option nat :=
  match cs with
  | [] => Datatypes.None
  | c :: rest =>
      if String.eqb (cell_name c) name then Some O
      else option_map S (index_of name rest)
  end.

(** Modelled from the spec: the resolution of every reference of a cell by
    the absent Reader: the indices of its targets, or the first name that
    names no cell. *)
Fixpoint resolve_names (cs : list Cell) (names : list string)
  : string + list nat :=
  match names with
  | [] => inr []
  | name :: rest =>
      match index_of name cs with
      | Datatypes.None => inl name
      | Some i =>
          match resolve_names cs rest with
          | inl bad => inl bad
          | inr targets => inr (i :: targets)
          end
      end
  end.

(** Modelled from the spec: the resolution of the references of every
    cell, in declaration order. *)
Fixpoint resolve_cells (cs : list Cell) (todo : list Cell)
  : string + list (list nat) :=
  match todo with
  | [] => inr []
  | c :: rest =>
      match resolve_names cs (references c) with
      | inl bad => inl bad
      | inr targets =>
          match resolve_cells cs rest with
          | inl bad => inl bad
          | inr g => inr (targets :: g)
          end
      end
  end.

(** Modelled from the spec: the resolved references of the absent Reader,
    "stored as resolved indices into a Cell array": for each cell index, the
    indices of the cells it instantiates. *)
Definition graph : Type := list (list nat).

Definition successors (g : graph) (c : nat) : list nat := nth c g [].

(** Modelled from the spec: how the traversal of the absent Reader ends:
    every cell reached is marked visited, or a back-edge was met.
    [OutOfFuel] is the model's own: the recursion is bounded by a counter. *)
Inductive outcome : Type :=
| Done (visited : list nat)
| BackEdge (cycle : list nat)
| OutOfFuel.

(** Modelled from the spec: the test of a mark of the absent Reader, the
    marked cells being kept in a list. *)
Definition marked (c : nat) (cs : list nat) : bool := existsb (Nat.eqb c) cs.

(** Modelled from the spec: the cells marked visiting after [c] was. *)
Fixpoint take_until (c : nat) (stack : list nat) : list nat :=
  match stack with
  | [] => []
  | x :: rest => if Nat.eqb x c then [] else x :: take_until c rest
  end.

(** Modelled from the spec: the cycle the absent Reader names when it meets
    a back-edge to [c]: from [c] up the stack of visiting cells and back to
    [c]. *)
Definition cycle_through (c : nat) (visiting : list nat) : list nat :=
  c :: rev (take_until c visiting) ++ [c].

(** Modelled from the spec: the traversal of the cells a cell instantiates,
    one after the other, each with [go]; the first back-edge ends it. *)
Fixpoint visit_each (go : list nat -> nat -> outcome) (cs : list nat)
  (visited : list nat) : outcome :=
  match cs with
  | [] => Done visited
  | c :: rest =>
      match go visited c with
      | Done visited' => visit_each go rest visited'
      | other => other
      end
  end.

(** Modelled from the spec: the depth-first traversal of the absent Reader,
    "with a visiting/visited mark per Cell; a back-edge to a
    currently-visiting Cell raises CyclicReferenceError".  [visiting] holds
    the cells marked visiting (innermost first), [visited] those marked
    visited (last finished first). *)
Fixpoint visit (fuel : nat) (g : graph) (visiting visited : list nat)
  (c : nat) : outcome :=
  match fuel with
  | O => OutOfFuel
  | S fuel' =>
      if marked c visited then Done visited
      else if marked c visiting then BackEdge (cycle_through c visiting)
      else
        match visit_each (visit fuel' g (c :: visiting)) (successors g c)
                         visited with
        | Done visited' => Done (c :: visited')
        | other => other
        end
  end.

(** Modelled from the spec: the acyclicity validation of the absent Reader,
    the traversal started from every cell in turn.  A path of cells marked
    visiting never repeats a cell, so one more unit of fuel than there are
    cells is enough. *)
Definition validate_acyclic (g : graph) : outcome :=
  visit_each (visit (S (List.length g)) g []) (seq 0 (List.length g)) [].

(** Modelled from the spec: the name of the cell at an index, for the
    error's message. *)
Definition name_at (cs : list Cell) (i : nat) : string :=
  cell_name (nth i cs (mkCell EmptyString [])).

Section Graph.

Variable g : graph.

(** Cell [x] instantiates cell [y]. *)
Definition edge (x y : nat) : Prop := In y (successors g x).

(** The cells marked visited, last finished first: each was finished after
    all the cells it instantiates. *)
Inductive finished : list nat -> Prop :=
| finished_nil : finished []
| finished_cons c l :
    finished l -> (forall u, edge c u -> In u l) -> finished (c :: l).

(** What a successful traversal from [c] establishes. *)
Definition traversal_ok (visited : list nat) (cs : list nat) (o : outcome)
  : Prop :=
  match o with
  | Done v => finished v /\ incl visited v /\ incl cs v
  | BackEdge _ => True
  | OutOfFuel => False
  end.

End Graph.

(** The cell at index [i] instantiates the cell at index [j]: one of its
    references names the cell at [j]. *)
Definition instantiates (cs : list Cell) (i j : nat) : Prop :=
  exists c name,
    nth_error cs i = Some c /\ In name (references c) /\
    index_of name cs = Some j.

(** A cell that, directly or transitively, instantiates itself. *)
Definition has_cycle (l : Layout) : Prop :=
  exists i, clos_trans nat (instantiates (cells l)) i i.

(** Every reference names a cell of the layout. *)
Definition all_resolve (l : Layout) : Prop :=
  forall c name,
    In c (cells l) -> In name (references c) ->
    index_of name (cells l) <> Datatypes.None.

(** Two cells that reference each other, and the library of the
    specification's ordering example, in which [nand2] and [inv1] place
    [via] and [abc2] places both. *)
Definition at_origin : Transform := mkTransform (0, 0)%Z 0%R false 1%R.

Definition cell_A : Cell := mkCell "A" [Reference "B" at_origin].
Definition cell_B : Cell :=
  mkCell "B" [Box (0, 0)%Z (4, 4)%Z 1 0; Reference "A" at_origin].
Definition looping_library : Layout :=
  mkLayout "LOOP" (1%R, 1%R) [cell_A; cell_B].

(** The same loop with a reference to a missing cell: [B] places [C], which
    no cell of the library is, before it places [A]. *)
Definition cell_B_dangling : Cell :=
  mkCell "B" [Reference "C" at_origin; Reference "A" at_origin].
Definition dangling_loop_library : Layout :=
  mkLayout "LOOP" (1%R, 1%R) [cell_A; cell_B_dangling].

Definition nand2_library : Layout :=
  mkLayout "NAND2" (1%R, 1%R)
    [ mkCell "via" [Box (0, 0)%Z (2, 2)%Z 3 0];
      mkCell "nand2" [Reference "via" at_origin];
      mkCell "inv1" [ArrayRef (mkArrayReference "via" at_origin 2 2
                                 (10, 0)%Z (0, 10)%Z)];
      mkCell "abc2" [Reference "nand2" at_origin; Reference "inv1" at_origin] ].

Section Load.

(** The first pass of the Reader (record codec and state machine, from
    bytes to cells) is a parameter, and so is the error raised for a
    reference to a missing cell, for which the specification names no
    kind. *)
Variable first_pass : list byte -> LoadError + Layout.
Variable unresolved_reference : string -> LoadError.

(** Modelled from the spec: the second pass of the absent Reader, "resolving
    every SNAME reference to its target Cell" and validating acyclicity.
    [None] stands for a traversal that ran out of fuel. *)
Definition second_pass (l : Layout) : option (LoadError + Layout) :=
  match resolve_cells (cells l) (cells l) with
  | inl bad => Some (inl (unresolved_reference bad))
  | inr g =>
      match validate_acyclic g with
      | Done _ => Some (inr l)
      | BackEdge cycle =>
          Some (inl (CyclicReferenceError (map (name_at (cells l)) cycle)))
      | OutOfFuel => Datatypes.None
      end
  end.

(** Modelled from the spec: the absent [loadFromStream]. *)
Definition loadFromStream (input : list byte) : option (LoadError + Layout) :=
  match first_pass input with
  | inl e => Some (inl e)
  | inr l => second_pass l
  end.

End Load.

End Engine.

(** ** generate_gosper.py: the path data and the pipeline of [main] *)

Module Pipeline.

Import Gosper.
Local Open Scope string_scope.

(** [ch in chars] *)
Fixpoint mem_char (ch : ascii) (chars : string) : bool :=
  match chars with
  | EmptyString => false
  | String c rest => Ascii.eqb ch c || mem_char ch rest
  end.

(** [s.rstrip(chars)]: [s] without its trailing characters that are in
    [chars]. *)
Fixpoint rstrip (chars : string) (s : string) : string :=
  match s with
  | EmptyString => EmptyString
  | String ch rest =>
      match rstrip chars rest with
      | EmptyString =>
          if mem_char ch chars then EmptyString else String ch EmptyString
      | String c r => String ch (String c r)
      end
  end.

(** The characters the turtle reads: the two moves and the two turns. *)
Definition turtle_reads (ch : ascii) : bool :=
  Ascii.eqb ch "A" || Ascii.eqb ch "B" || Ascii.eqb ch "+" || Ascii.eqb ch "-".

Fixpoint all_chars (P : ascii -> bool) (s : string) : bool :=
  match s with
  | EmptyString => true
  | String ch rest => P ch && all_chars P rest
  end.

(** Number of occurrences of [c] in [s]. *)
Fixpoint count_char (c : ascii) (s : string) : nat :=
  match s with
  | EmptyString => 0
  | String ch rest => (if Ascii.eqb ch c then 1 else 0) + count_char c rest
  end.

(** [s] with the characters the turtle does not read left out, and every
    [B] written [A]. *)
Fixpoint moves_and_turns (s : string) : string :=
  match s with
  | EmptyString => EmptyString
  | String ch rest =>
      if Ascii.eqb ch "A" || Ascii.eqb ch "B" then
        String "A" (moves_and_turns rest)
      else if Ascii.eqb ch "+" || Ascii.eqb ch "-" then
        String ch (moves_and_turns rest)
      else moves_and_turns rest
  end.

Section PathData.

(** The format specification [.3f] applied to a float, [f"{v:.3f}"]. *)
Variable format_3f : float -> string.

(** The inner function [fmt] of [svg_path_from_points]. *)
Definition fmt (v : float) : string :=
  rstrip "." (rstrip "0" (format_3f v)).

Definition svg_path_from_points (points : list (float * float)) : string :=
  match points with
  | [] => EmptyString
  | p0 :: rest =>
      let cmds := ["M " ++ fmt (fst p0) ++ " " ++ fmt (snd p0)] in
      let cmds :=
        List.app cmds (map (fun p : float * float =>
                              "L " ++ fmt (fst p) ++ " " ++ fmt (snd p)) rest) in
      join " " cmds
  end.

(** numpy's [cos], [sin] and [radians], as for [turtle_path]. *)
Variables np_cos np_sin np_radians : float -> float.

(** How [main] can end before it calls [make_svg]: [SystemExit] from its
    own check, or an exception of the functions it calls. *)
Inductive main_exn : Type :=
| SystemExit (message : string)
| Uncaught (e : exn).

(** [main] from the check of the order to the fitted points
    ([args.order] and [args.size] are the parsed integers). *)
Definition main_points (order size : Z) : main_exn + list (float * float) :=
  if (order <? 0)%Z || (order >? 6)%Z then
    inl (SystemExit "Choose an order between 0 and 6 (try 3-5).")
  else
    let instr := lsystem_instructions order in
    let pts := turtle_path np_cos np_sin np_radians instr 10.0 in
    match fit_to_viewbox pts size 32.0%float with
    | Ok pts' => inr pts'
    | Raise e => inl (Uncaught e)
    end.

(** [main] up to [path_d]. *)
Definition main_path_d (order size : Z) : main_exn + string :=
  match main_points order size with
  | inr pts => inr (svg_path_from_points pts)
  | inl e => inl e
  end.

End PathData.

End Pipeline.

(** ** tests/test_cells.py *)

Module CellsTest.

Definition expected_cells : list string :=
  ["via"; "nand2"; "inv1"; "abc2"]%string.

(** The condition [test_cells_smoke] asserts, as a function of the names
    [layout.cells()] returned: [all(cell == expected_cell for cell,
    expected_cell in zip(cells, expected))]. *)
Definition all_zip_equal (cells expected : list string) : bool :=
  forallb (fun pair : string * string => String.eqb (fst pair) (snd pair))
          (combine cells expected).

Definition test_cells_assertion (cells : list string) : bool :=
  all_zip_equal cells expected_cells.

End CellsTest.

(** * Properties *)

(** ** The L-system and the turtle *)

Module GosperFacts.

Import Gosper.

Lemma count_AB_app (s t : string) :
  count_AB (s ++ t)%string = (count_AB s + count_AB t)%nat.
Proof.
  induction s as [|ch s IH]; simpl; [reflexivity|].
  rewrite IH. lia.
Qed.

Lemma join_empty_cons (x : string) (out : list string) :
  join EmptyString (x :: out) = (x ++ join EmptyString out)%string.
Proof.
  unfold join. destruct out as [|y out]; simpl.
  - induction x as [|ch x IH]; simpl; [reflexivity|]. now rewrite <- IH.
  - reflexivity.
Qed.

(** Each rule holds seven symbols that move the turtle. *)
Lemma rules_hold_seven : count_AB RULE_A = 7%nat /\ count_AB RULE_B = 7%nat.
Proof. split; reflexivity. Qed.

(** One round of rewriting multiplies the number of [A]/[B] symbols by 7. *)
Lemma count_AB_rewrite (s : string) :
  count_AB (join EmptyString (rewrite_chars s)) = (7 * count_AB s)%nat.
Proof.
  induction s as [|ch s IH]; [reflexivity|].
  cbn [rewrite_chars]. rewrite join_empty_cons, count_AB_app, IH.
  cbn [count_AB].
  destruct (Ascii.eqb ch "A"%char) eqn:HA; [cbn; lia|].
  destruct (Ascii.eqb ch "B"%char) eqn:HB; [cbn; lia|].
  cbn [count_AB orb]. rewrite HA, HB. cbn. lia.
Qed.

Lemma count_AB_rounds (n : nat) (s : string) :
  count_AB (rewrite_rounds n s) = (7 ^ n * count_AB s)%nat.
Proof.
  revert s. induction n as [|n IH]; intros s.
  - cbn. lia.
  - cbn [rewrite_rounds]. rewrite IH, count_AB_rewrite.
    rewrite Nat.pow_succ_r'. lia.
Qed.

Section TurtleFacts.

Variables np_cos np_sin np_radians : float -> float.

(** The loop only ever appends to [pts], one point per [A] or [B]. *)
Lemma turtle_loop_appends (turn step : float) (instr : string) (t : turtle) :
  exists new,
    t_pts (turtle_loop np_cos np_sin turn step instr t) = t_pts t ++ new /\
    List.length new = count_AB instr.
Proof.
  revert t. induction instr as [|ch instr IH]; intros t.
  - exists []. cbn. now rewrite app_nil_r.
  - cbn [turtle_loop count_AB].
    destruct (IH (turtle_step np_cos np_sin turn step t ch)) as [new [E L]].
    rewrite E. unfold turtle_step.
    destruct (Ascii.eqb ch "A"%char || Ascii.eqb ch "B"%char) eqn:Hmove.
    + cbn [t_pts]. eexists. rewrite <- app_assoc. split; [reflexivity|].
      cbn. now rewrite L.
    + exists new. split; [|exact L].
      destruct (Ascii.eqb ch "+"%char); [reflexivity|].
      destruct (Ascii.eqb ch "-"%char); reflexivity.
Qed.

Lemma turtle_path_shape (instr : string) (step : float) :
  exists new,
    turtle_path np_cos np_sin np_radians instr step
      = (0.0%float, 0.0%float) :: new /\
    List.length new = count_AB instr.
Proof.
  unfold turtle_path.
  destruct (turtle_loop_appends (np_radians ANGLE_DEG) step instr
              (mkTurtle 0.0 0.0 0.0 [(0.0%float, 0.0%float)]))
    as [new [E L]].
  exists new. split; [exact E | exact L].
Qed.

End TurtleFacts.

(** C9: for every order [n >= 0], [lsystem_instructions n] holds exactly
    [7 ^ n] characters that are [A] or [B] (each rule holds seven of them,
    and [+] and [-] are rewritten to themselves), and [turtle_path] run on
    it returns exactly [7 ^ n + 1] points, the first of which is
    [(0.0, 0.0)]. *)
Theorem lsystem_turtle_point_count
  (np_cos np_sin np_radians : float -> float) (n : Z) (step : float) :
  (0 <= n)%Z ->
  count_AB RULE_A = 7%nat /\ count_AB RULE_B = 7%nat /\
  rewrite_chars "+-" = ["+"; "-"]%string /\
  Z.of_nat (count_AB (lsystem_instructions n)) = (7 ^ n)%Z /\
  Z.of_nat (List.length (turtle_path np_cos np_sin np_radians
                           (lsystem_instructions n) step)) = (7 ^ n + 1)%Z /\
  hd_error (turtle_path np_cos np_sin np_radians (lsystem_instructions n) step)
    = Some (0.0%float, 0.0%float).
Proof.
  intros Hn.
  assert (Hcount : Z.of_nat (count_AB (lsystem_instructions n)) = (7 ^ n)%Z).
  { unfold lsystem_instructions. rewrite count_AB_rounds.
    change (count_AB "A") with 1%nat. rewrite Nat.mul_1_r.
    rewrite Nat2Z.inj_pow, Z2Nat.id by exact Hn. reflexivity. }
  destruct (turtle_path_shape np_cos np_sin np_radians
              (lsystem_instructions n) step) as [new [E L]].
  repeat split; try reflexivity; try exact Hcount.
  - rewrite E. cbn [List.length]. rewrite L. lia.
  - rewrite E. reflexivity.
Qed.

Lemma lsystem_turtle_point_count_witness :
  count_AB RULE_A = 7%nat /\ count_AB RULE_B = 7%nat /\
  rewrite_chars "+-" = ["+"; "-"]%string /\
  Z.of_nat (count_AB (lsystem_instructions 2)) = 49%Z /\
  Z.of_nat (List.length (turtle_path (fun a => a) (fun a => a) (fun a => a)
                           (lsystem_instructions 2) 10%float)) = 50%Z /\
  hd_error (turtle_path (fun a => a) (fun a => a) (fun a => a)
              (lsystem_instructions 2) 10%float)
    = Some (0.0%float, 0.0%float).
Proof.
  apply (lsystem_turtle_point_count (fun a => a) (fun a => a) (fun a => a)
           2 10%float).
  lia.
Defined.

End GosperFacts.

(** ** fit_to_viewbox *)

Module FitFacts.

Import Gosper.

Section AnyArithmetic.

Context {F : Type} `{Arith F}.

Lemma fit_to_viewbox_empty (size : Z) (margin : F) :
  fit_to_viewbox (@nil (F * F)) size margin = Raise ValueError.
Proof. reflexivity. Qed.

Lemma fit_to_viewbox_overflow (p : F * F) (ps : list (F * F)) (size : Z)
  (margin : F) :
  of_int size = None ->
  fit_to_viewbox (p :: ps) size margin = Raise OverflowError.
Proof.
  intros E. unfold fit_to_viewbox, to_float. cbn. now rewrite E.
Qed.

Lemma fit_to_viewbox_returns (points : list (F * F)) (size : Z) (margin : F) :
  points <> [] -> of_int size <> None ->
  exists out,
    fit_to_viewbox points size margin = Ok out /\
    List.length out = List.length points.
Proof.
  intros Hne Hsize.
  destruct points as [|p ps]; [contradiction|].
  destruct (of_int size) as [fsize|] eqn:E; [|contradiction].
  unfold fit_to_viewbox, to_float. cbn [map py_min py_max bind].
  rewrite E. cbn [bind].
  eexists. split; [reflexivity|].
  cbn [List.length map]. f_equal. apply length_map.
Qed.

End AnyArithmetic.

(** C10, as stated, fails on inputs of the program.  On the two points
    [(0.1, 0.0)] and [(16.0, 0.0)] with [size = 1024] and [margin = 32.0]
    (so [size >= 2 * margin]) the first output abscissa is
    [31.999999999999943], left of the margin.  On the empty list [min]
    raises [ValueError], and with [size = 2 ** 1024] the conversion of
    [size] to [float] raises [OverflowError]: no list is returned. *)
Lemma fit_to_viewbox_leaves_square :
  fit_to_viewbox [(0.1, 0.0); (16.0, 0.0)]%float 1024 32%float
    = Ok [(31.999999999999943, 512.0); (992.0, 512.0)]%float /\
  PrimFloat.ltb 31.999999999999943 32 = true /\
  PrimFloat.leb (2 * 32) 1024 = true /\
  fit_to_viewbox (@nil (float * float)) 1024 32%float = Raise ValueError /\
  fit_to_viewbox [(0.0, 0.0)]%float (2 ^ 1024) 32%float = Raise OverflowError.
Proof.
  repeat split; vm_compute; reflexivity.
Qed.

(** Further from the square: with coordinates near [1e16], where
    neighbouring floats are 2 apart, the midpoint of the frame is rounded
    and the points land hundreds of units outside [[32, 992]]. *)
Example fit_to_viewbox_far_outside :
  fit_to_viewbox [(1e16, 0.0); (10000000000000002, 0.0)]%float 1024 32%float
    = Ok [(512.0, 512.0); (1472.0, 512.0)]%float /\
  fit_to_viewbox [(1e16, 0.0); (10000000000000002, 0.0);
                  (10000000000000006, 0.0)]%float 1024 32%float
    = Ok [(-128.0, 512.0); (192.0, 512.0); (832.0, 512.0)]%float.
Proof.
  split; vm_compute; reflexivity.
Qed.

(** C10, amended: on a non-empty list, with a [size] that converts to
    [float], [fit_to_viewbox] returns a list of exactly the length of its
    input.  (Nothing is said of where the points lie: in binary64 they can
    leave the square [[margin, size - margin]], as the two lemmas above
    show.) *)
Theorem fit_to_viewbox_same_length (points : list (float * float)) (size : Z)
  (margin : float) :
  points <> [] -> @of_int float float_arith size <> None ->
  exists out,
    fit_to_viewbox points size margin = Ok out /\
    List.length out = List.length points.
Proof.
  intros Hne Hsize.
  destruct (fit_to_viewbox_returns points size margin Hne Hsize)
    as [out [Hout Hlength]].
  exists out. split; [exact Hout | exact Hlength].
Qed.

Lemma fit_to_viewbox_same_length_witness :
  exists out,
    fit_to_viewbox [(0.1, 0.0); (16.0, 0.0)]%float 1024 32%float = Ok out /\
    List.length out = 2%nat.
Proof.
  apply (fit_to_viewbox_same_length
           [(0.1, 0.0); (16.0, 0.0)]%float 1024%Z 32%float).
  - discriminate.
  - vm_compute. discriminate.
Defined.

End FitFacts.

(** ** The Layout wrapper *)

Module WrapperFacts.

Import Wrapper.

Section AnyEngine.

Context {World Obj Exn : Type} {engine : Engine World Obj Exn}.

Lemma bind_ret_None (m : Py World Exn Obj) (w : World) :
  bind m (fun _ => ret None) w = returning_None (m w).
Proof.
  unfold bind, ret, returning_None. destruct (m w) as [[e|a] w']; reflexivity.
Qed.

Lemma load_gds_forwards (self : Layout Obj) (path : Obj) (w : World) :
  load_gds self path w
  = called_with_str
      (fun s w' => returning_None (inner_load_gds (_inner self) s w')) path w.
Proof.
  unfold load_gds, called_with_str, bind at 1.
  destruct (str path w) as [[e|s] w']; [reflexivity|]. apply bind_ret_None.
Qed.

Lemma save_oas_forwards (self : Layout Obj) (path : Obj) (w : World) :
  save_oas self path w
  = called_with_str
      (fun s w' => returning_None (inner_save_oas (_inner self) s w')) path w.
Proof.
  unfold save_oas, called_with_str, bind at 1.
  destruct (str path w) as [[e|s] w']; [reflexivity|]. apply bind_ret_None.
Qed.

(** The object a new [Layout] wraps is the one the engine's constructor
    returned. *)
Lemma init_wraps_engine_object (w : World) :
  __init__ w = match PyLayout w with
               | (inr inner, w') => (inr (mkLayout inner), w')
               | (inl e, w') => (inl e, w')
               end.
Proof. reflexivity. Qed.

End AnyEngine.

(** C8: whatever the engine is, [Layout.cells] is the engine's
    [cell_names()] on the wrapped object: same returned object, same
    exception, same state; and [load_gds] and [save_oas] call [str] on the
    path and hand its result, as it is, to the engine's method of the same
    name, passing on the engine's exception and state (and returning
    [None]). *)
Theorem layout_wrapper_delegates (World Obj Exn : Type)
  (engine : Engine World Obj Exn) (self : Layout Obj) (path : Obj) (w : World) :
  cells self = inner_cell_names (_inner self) /\
  load_gds self path w
  = called_with_str
      (fun s w' => returning_None (inner_load_gds (_inner self) s w')) path w /\
  save_oas self path w
  = called_with_str
      (fun s w' => returning_None (inner_save_oas (_inner self) s w')) path w.
Proof.
  split; [reflexivity|]. split.
  - apply load_gds_forwards.
  - apply save_oas_forwards.
Qed.

#[local] Existing Instance Toy.toy.

(** The wrapper on the toy engine: [cells] returns the engine's list in the
    engine's order, and the engine saw the calls with the forwarded path. *)
Example toy_session :
  let session :=
    bind __init__ (fun layout =>
    bind (load_gds layout (Toy.OStr "nand2.gds2")) (fun _ =>
    cells layout)) in
  session (Toy.mkWorld [] [])
  = (inr (Toy.ONames ["top"; "alu"; "via"]%string),
     Toy.mkWorld ["top"; "alu"; "via"]%string
       [Toy.CallLoad (Toy.OStr "nand2.gds2"); Toy.CallNames]).
Proof. reflexivity. Qed.

(** An exception of the engine passes through the wrapper unchanged. *)
Example toy_load_raises :
  load_gds (mkLayout Toy.OEngine) (Toy.OStr EmptyString) (Toy.mkWorld [] [])
  = (inl Toy.OSError, Toy.mkWorld [] [Toy.CallLoad (Toy.OStr EmptyString)]).
Proof. reflexivity. Qed.

(** A path that is no string reaches the engine as its text: for [None] the
    engine is asked to load the file called [None]. *)
Example toy_load_converts_path :
  load_gds (mkLayout Toy.OEngine) Toy.ONone (Toy.mkWorld [] [])
  = (inr Toy.ONone,
     Toy.mkWorld ["top"; "alu"; "via"]%string
       [Toy.CallLoad (Toy.OStr "None")]).
Proof. reflexivity. Qed.

End WrapperFacts.

(** ** Transform algebra *)

Module TransformFacts.

Import Engine.
Local Open Scope R_scope.

(** The four steps in coordinates: the point is scaled, its ordinate
    negated when the mirror flag is set, the result rotated, and the
    translation added last (it is neither scaled nor rotated). *)
Lemma applyToPoint_coordinates (t : Transform) (x y : R) :
  applyToPoint t (x, y)
  = (magnification t * (x * cos (radians (rotation t))
                        - mirror_sign t * y * sin (radians (rotation t)))
       + IZR (fst (translation t)),
     magnification t * (x * sin (radians (rotation t))
                        + mirror_sign t * y * cos (radians (rotation t)))
       + IZR (snd (translation t))).
Proof.
  unfold applyToPoint, translate, rotate, mirror_x, magnify, mirror_sign.
  destruct (mirror t); cbn [fst snd]; f_equal; ring.
Qed.

(** Every transform leaves the origin where its translation puts it. *)
Lemma applyToPoint_origin (t : Transform) :
  applyToPoint t (0, 0)
  = (IZR (fst (translation t)), IZR (snd (translation t))).
Proof.
  rewrite applyToPoint_coordinates. f_equal; ring.
Qed.

Lemma radians_90 : radians 90 = PI / 2.
Proof. unfold radians. field. Qed.

(** The order is observable: with the mirror flag set and a rotation by 90
    degrees, [(0, 1)] is mirrored to [(0, -1)] and then rotated to [(1, 0)];
    rotating first and mirroring afterwards would give [(-1, 0)]. *)
Example mirror_before_rotation :
  applyToPoint (mkTransform (0, 0)%Z 90 true 1) (0, 1) = (1, 0).
Proof.
  rewrite applyToPoint_coordinates. cbn [rotation mirror magnification
    translation fst snd mirror_sign].
  rewrite radians_90, cos_PI2, sin_PI2. f_equal; ring.
Qed.

(** The translation is added after the magnification: it is not scaled. *)
Example translation_after_magnification :
  applyToPoint (mkTransform (1, 0)%Z 0 false 2) (1, 0) = (3, 0).
Proof.
  rewrite applyToPoint_coordinates. cbn [rotation mirror magnification
    translation fst snd mirror_sign].
  replace (radians 0) with 0 by (unfold radians; field).
  rewrite cos_0, sin_0. f_equal; ring.
Qed.

Lemma flat_map_constant_length {A B : Type} (f : A -> list B) (n : nat)
  (l : list A) :
  (forall x, List.length (f x) = n) ->
  List.length (flat_map f l) = (List.length l * n)%nat.
Proof.
  intros Hf. induction l as [|x l IH]; [reflexivity|].
  cbn [flat_map List.length]. rewrite length_app, Hf, IH. reflexivity.
Qed.

(** One instance per lattice cell. *)
Lemma expand_length (a : ArrayReference) :
  List.length (expand a) = (ar_rows a * ar_cols a)%nat.
Proof.
  unfold expand.
  rewrite (flat_map_constant_length _ (ar_cols a)).
  - now rewrite length_seq.
  - intros row. now rewrite length_map, length_seq.
Qed.

(** C7: [applyToPoint] is magnification, then mirror, then rotation, then
    translation, for every transform and point; and a 2x2 array reference
    with pitch vectors [(10, 0)] and [(0, 10)], placed at the origin (with
    any rotation, mirror flag and magnification), of a cell that holds the
    single point [(0, 0)], resolves to exactly four instances, at [(0, 0)],
    [(10, 0)], [(0, 10)] and [(10, 10)]. *)
Theorem applyToPoint_order_and_array_grid (t : Transform) (x y : R)
  (target : string) (angle mag : R) (mirrored : bool) :
  applyToPoint t (x, y) = translate t (rotate t (mirror_x t (magnify t (x, y))))
  /\
  applyToPoint t (x, y)
  = (magnification t * (x * cos (radians (rotation t))
                        - mirror_sign t * y * sin (radians (rotation t)))
       + IZR (fst (translation t)),
     magnification t * (x * sin (radians (rotation t))
                        + mirror_sign t * y * cos (radians (rotation t)))
       + IZR (snd (translation t)))
  /\
  let a := mkArrayReference target (mkTransform (0, 0)%Z angle mirrored mag)
             2 2 (10, 0)%Z (0, 10)%Z in
  List.length (expand a) = 4%nat /\
  resolve_array a [(0, 0)] = [(0, 0); (10, 0); (0, 10); (10, 10)].
Proof.
  split; [reflexivity|]. split; [apply applyToPoint_coordinates|].
  intros a. split; [apply expand_length|].
  unfold resolve_array, expand, a.
  cbn [ar_rows ar_cols ar_base seq flat_map map app].
  rewrite !applyToPoint_origin. reflexivity.
Qed.

End TransformFacts.

(** ** The Reader's second pass: acyclicity *)

Module ReaderFacts.

Import Engine.

Section Traversal.

Variable g : graph.

(** Every successor is the index of a cell. *)
Hypothesis successors_bounded :
  forall c u, In u (successors g c) -> u < List.length g.

Local Abbreviation edge := (Engine.edge g).
Local Abbreviation finished := (Engine.finished g).
Local Abbreviation traversal_ok := (Engine.traversal_ok g).

Lemma finished_step (l : list nat) :
  finished l -> forall x y, In x l -> edge x y -> In y l.
Proof.
  induction 1 as [|c l Hl IH Hc]; intros x y Hx Hxy; [contradiction|].
  right. destruct Hx as [->|Hx]; [now apply Hc | now apply (IH x)].
Qed.

Lemma finished_closed (l : list nat) :
  finished l ->
  forall x y, clos_refl_trans nat edge x y -> In x l -> In y l.
Proof.
  intros Hl x y Hxy. induction Hxy as [x y Hxy | x | x y z _ IH1 _ IH2].
  - intros Hx. now apply (finished_step l Hl x).
  - trivial.
  - auto.
Qed.

(** No finished cell instantiates itself, directly or transitively. *)
Lemma finished_acyclic (l : list nat) :
  finished l -> forall x, In x l -> ~ clos_trans nat edge x x.
Proof.
  induction 1 as [|c l Hl IH Hc]; intros x Hx Hcycle; [contradiction|].
  assert (Hxl : In x l).
  { destruct Hx as [->|Hx]; [|exact Hx].
    apply clos_trans_t1n in Hcycle.
    inversion Hcycle as [y Hstep | y z Hstep Hrest]; subst.
    - now apply Hc.
    - apply (finished_closed l Hl y x); [|now apply Hc].
      apply clos_t_clos_rt. now apply clos_t1n_trans. }
  exact (IH x Hxl Hcycle).
Qed.

Lemma marked_In (c : nat) (cs : list nat) : marked c cs = true <-> In c cs.
Proof.
  unfold marked. rewrite existsb_exists. split.
  - intros [x [Hx E]]. apply Nat.eqb_eq in E. now subst.
  - intros Hc. exists c. split; [exact Hc | apply Nat.eqb_refl].
Qed.

(** No more cells can be marked visiting than there are cells. *)
Lemma visiting_bounded (visiting : list nat) :
  NoDup visiting -> (forall x, In x visiting -> x < List.length g) ->
  List.length visiting <= List.length g.
Proof.
  intros Hnd Hlt. rewrite <- (length_seq (List.length g) 0).
  apply NoDup_incl_length; [exact Hnd|].
  intros x Hx. apply in_seq. specialize (Hlt x Hx). lia.
Qed.

Lemma visit_each_ok (go : list nat -> nat -> outcome) :
  (forall visited c, c < List.length g -> finished visited ->
     traversal_ok visited [c] (go visited c)) ->
  forall cs visited,
    (forall c, In c cs -> c < List.length g) -> finished visited ->
    traversal_ok visited cs (visit_each go cs visited).
Proof.
  intros Hgo. induction cs as [|c cs IH]; intros visited Hcs Hfin.
  - cbn. repeat split; [exact Hfin | apply incl_refl | intros x []].
  - cbn [visit_each].
    specialize (Hgo visited c (Hcs c (or_introl eq_refl)) Hfin).
    destruct (go visited c) as [v| |]; cbn in Hgo; [|exact I|contradiction].
    destruct Hgo as [Hv [Hincl Hc]].
    specialize (IH v (fun x Hx => Hcs x (or_intror Hx)) Hv).
    destruct (visit_each go cs v) as [v'| |]; cbn in IH |- *;
      [|exact I|contradiction].
    destruct IH as [Hv' [Hincl' Hcs']].
    repeat split.
    + exact Hv'.
    + eapply incl_tran; eassumption.
    + intros x [<-|Hx]; [apply Hincl', Hc; now left | now apply Hcs'].
Qed.

Lemma visit_ok (fuel : nat) :
  forall visiting visited c,
    NoDup visiting -> (forall x, In x visiting -> x < List.length g) ->
    c < List.length g -> List.length g < fuel + List.length visiting ->
    finished visited ->
    traversal_ok visited [c] (visit fuel g visiting visited c).
Proof.
  induction fuel as [|fuel IH]; intros visiting visited c Hnd Hlt Hc Hfuel Hfin.
  - pose proof (visiting_bounded visiting Hnd Hlt). lia.
  - cbn [visit].
    destruct (marked c visited) eqn:Hvisited.
    { apply marked_In in Hvisited. cbn.
      repeat split; [exact Hfin | apply incl_refl |].
      intros x [<-|[]]. exact Hvisited. }
    destruct (marked c visiting) eqn:Hvisiting; [exact I|].
    assert (Hnew : ~ In c visiting).
    { intro Hin. apply marked_In in Hin. congruence. }
    pose proof (visit_each_ok (visit fuel g (c :: visiting))) as Heach.
    specialize (Heach (fun visited' c' Hc' Hfin' =>
      IH (c :: visiting) visited' c'
         (NoDup_cons c Hnew Hnd)
         (fun x Hx => match Hx with
                      | or_introl E => eq_ind c (fun y => y < _) Hc x E
                      | or_intror Hx' => Hlt x Hx'
                      end)
         Hc' ltac:(cbn [List.length]; lia) Hfin')).
    specialize (Heach (successors g c) visited
                  (fun u Hu => successors_bounded c u Hu) Hfin).
    destruct (visit_each (visit fuel g (c :: visiting)) (successors g c)
                visited) as [v| |]; cbn in Heach |- *; [|exact I|contradiction].
    destruct Heach as [Hv [Hincl Hsucc]].
    repeat split.
    + apply finished_cons; [exact Hv | exact Hsucc].
    + now apply incl_tl.
    + intros x [<-|[]]. now left.
Qed.

(** The traversal never runs out of fuel, and when it succeeds every cell is
    finished. *)
Lemma validate_acyclic_ok :
  traversal_ok [] (seq 0 (List.length g)) (validate_acyclic g).
Proof.
  unfold validate_acyclic. apply visit_each_ok.
  - intros visited c Hc Hfin.
    apply visit_ok; [constructor | intros x [] | exact Hc | cbn; lia | exact Hfin].
  - intros c Hc. apply in_seq in Hc. lia.
  - constructor.
Qed.

Lemma edge_source_bounded (x y : nat) : edge x y -> x < List.length g.
Proof.
  unfold edge, successors. intros Hxy.
  destruct (Nat.lt_ge_cases x (List.length g)) as [Hlt|Hge]; [exact Hlt|].
  rewrite nth_overflow in Hxy by exact Hge. contradiction.
Qed.

(** A cycle in the reference graph makes the traversal meet a back-edge. *)
Lemma validate_acyclic_finds_cycle (c : nat) :
  clos_trans nat edge c c -> exists cycle, validate_acyclic g = BackEdge cycle.
Proof.
  intros Hcycle. pose proof validate_acyclic_ok as Hok.
  destruct (validate_acyclic g) as [v|cycle|]; cbn in Hok.
  - exfalso. destruct Hok as [Hv [_ Hall]].
    apply (finished_acyclic v Hv c); [|exact Hcycle].
    apply Hall, in_seq. split; [lia|]. cbn.
    apply clos_trans_t1n in Hcycle.
    inversion Hcycle as [y Hstep | y z Hstep _]; subst;
      now apply (edge_source_bounded c _ Hstep).
  - now exists cycle.
  - contradiction.
Qed.

End Traversal.

(** *** Resolution of the references into the graph *)

Lemma index_of_bounded (name : string) (cs : list Cell) (i : nat) :
  index_of name cs = Some i -> i < List.length cs.
Proof.
  revert i. induction cs as [|c cs IH]; intros i; cbn; [discriminate|].
  destruct (String.eqb (cell_name c) name).
  - intros [= <-]. lia.
  - destruct (index_of name cs) as [j|]; cbn; [|discriminate].
    intros [= <-]. specialize (IH j eq_refl). lia.
Qed.

Lemma resolve_names_targets (cs : list Cell) (names : list string)
  (targets : list nat) :
  resolve_names cs names = inr targets ->
  forall j, In j targets <->
            exists name, In name names /\ index_of name cs = Some j.
Proof.
  revert targets. induction names as [|name names IH]; intros targets; cbn.
  - intros [= <-] j. split; [intros [] | intros [? [[] _]]].
  - destruct (index_of name cs) as [i|] eqn:Ei; [|discriminate].
    destruct (resolve_names cs names) as [bad|rest]; [discriminate|].
    intros [= <-] j. specialize (IH rest eq_refl j). split.
    + intros [<-|Hj]; [exists name; auto|].
      apply IH in Hj. destruct Hj as [name' [Hin E]]. exists name'. auto.
    + intros [name' [[<-|Hin] E]].
      * left. congruence.
      * right. apply IH. exists name'. auto.
Qed.

Lemma resolve_cells_rows (cs todo : list Cell) (g : graph) :
  resolve_cells cs todo = inr g ->
  List.length g = List.length todo /\
  forall k c, nth_error todo k = Some c ->
              resolve_names cs (references c) = inr (successors g k).
Proof.
  revert g. induction todo as [|c todo IH]; intros g; cbn.
  - intros [= <-]. split; [reflexivity|]. intros [|k] c; discriminate.
  - destruct (resolve_names cs (references c)) as [bad|targets] eqn:Ec;
      [discriminate|].
    destruct (resolve_cells cs todo) as [bad|g'] eqn:Eg; [discriminate|].
    intros [= <-]. destruct (IH g' eq_refl) as [Hlen Hrows].
    split; [cbn; now rewrite Hlen|].
    intros [|k] c'; cbn.
    + intros [= <-]. exact Ec.
    + apply Hrows.
Qed.

Lemma resolve_names_total (cs : list Cell) (names : list string) :
  (forall name, In name names -> index_of name cs <> Datatypes.None) ->
  exists targets, resolve_names cs names = inr targets.
Proof.
  induction names as [|name names IH]; intros Hall; cbn; [now eexists|].
  destruct (index_of name cs) as [i|] eqn:Ei.
  - destruct IH as [rest ->]; [intros n Hn; apply Hall; now right|].
    now eexists.
  - exfalso. apply (Hall name); [now left | exact Ei].
Qed.

Lemma resolve_cells_total (cs todo : list Cell) :
  (forall c name, In c todo -> In name (references c) ->
                  index_of name cs <> Datatypes.None) ->
  exists g, resolve_cells cs todo = inr g.
Proof.
  induction todo as [|c todo IH]; intros Hall; cbn; [now eexists|].
  destruct (resolve_names_total cs (references c)) as [targets ->].
  { intros name Hname. apply (Hall c name); [now left | exact Hname]. }
  destruct IH as [g ->]; [|now eexists].
  intros c' name Hc'. apply Hall. now right.
Qed.

Lemma instantiates_edge (cs : list Cell) (g : graph) :
  resolve_cells cs cs = inr g ->
  forall i j, instantiates cs i j -> edge g i j.
Proof.
  intros Hg i j [c [name [Hc [Hname Hj]]]].
  destruct (resolve_cells_rows cs cs g Hg) as [_ Hrows].
  unfold edge.
  apply (resolve_names_targets cs (references c) _ (Hrows i c Hc)).
  exists name. auto.
Qed.

Lemma instantiates_path (cs : list Cell) (g : graph) :
  resolve_cells cs cs = inr g ->
  forall i j, clos_trans nat (instantiates cs) i j ->
              clos_trans nat (edge g) i j.
Proof.
  intros Hg i j Hpath. induction Hpath as [x y Hxy | x y z _ IH1 _ IH2].
  - apply t_step. now apply (instantiates_edge cs).
  - now apply t_trans with y.
Qed.

Lemma resolved_graph_bounded (cs : list Cell) (g : graph) :
  resolve_cells cs cs = inr g ->
  forall c u, In u (successors g c) -> u < List.length g.
Proof.
  intros Hg c u Hu.
  destruct (resolve_cells_rows cs cs g Hg) as [Hlen Hrows].
  destruct (nth_error cs c) as [cell|] eqn:Ec.
  - apply (resolve_names_targets cs (references cell) _ (Hrows c cell Ec))
      in Hu.
    destruct Hu as [name [_ Hi]]. rewrite Hlen.
    now apply (index_of_bounded name).
  - apply nth_error_None in Ec. unfold successors in Hu.
    rewrite nth_overflow in Hu by lia. contradiction.
Qed.

Section Loading.

Variable first_pass : list byte -> LoadError + Layout.
Variable unresolved_reference : string -> LoadError.

Example looping_library_is_rejected :
  second_pass unresolved_reference looping_library
  = Some (inl (CyclicReferenceError ["A"; "B"; "A"]%string)).
Proof. reflexivity. Qed.

Example nand2_library_is_accepted :
  second_pass unresolved_reference nand2_library = Some (inr nand2_library).
Proof. reflexivity. Qed.

End Loading.




End ReaderFacts.

(** ** More on the L-system *)

Module LsystemMore.

Import Gosper Pipeline.

Lemma string_app_assoc (s t u : string) :
  ((s ++ t) ++ u)%string = (s ++ (t ++ u))%string.
Proof.
  induction s as [|ch s IH]; cbn; [reflexivity | now rewrite IH].
Qed.

Lemma string_length_app (s t : string) :
  String.length (s ++ t) = (String.length s + String.length t)%nat.
Proof.
  induction s as [|ch s IH]; cbn; [reflexivity | now rewrite IH].
Qed.

Lemma all_chars_app (P : ascii -> bool) (s t : string) :
  all_chars P (s ++ t) = all_chars P s && all_chars P t.
Proof.
  induction s as [|ch s IH]; cbn; [reflexivity|].
  rewrite IH. now rewrite andb_assoc.
Qed.

Lemma count_char_app (c : ascii) (s t : string) :
  count_char c (s ++ t) = (count_char c s + count_char c t)%nat.
Proof.
  induction s as [|ch s IH]; cbn; [reflexivity|]. rewrite IH. lia.
Qed.

(** One pass of the inner loop, joined. *)
Local Abbreviation one_round s := (join EmptyString (rewrite_chars s)).

Lemma one_round_cons (ch : ascii) (s : string) :
  one_round (String ch s)
  = ((if Ascii.eqb ch "A" then RULE_A
      else if Ascii.eqb ch "B" then RULE_B
      else String ch EmptyString) ++ one_round s)%string.
Proof. cbn [rewrite_chars]. apply GosperFacts.join_empty_cons. Qed.

Lemma one_round_app (s t : string) :
  one_round (s ++ t) = (one_round s ++ one_round t)%string.
Proof.
  induction s as [|ch s IH]; [reflexivity|].
  change (String ch s ++ t)%string with (String ch (s ++ t)%string).
  rewrite !one_round_cons, IH. now rewrite string_app_assoc.
Qed.

Lemma rewrite_rounds_app (n : nat) (s t : string) :
  rewrite_rounds n (s ++ t)
  = (rewrite_rounds n s ++ rewrite_rounds n t)%string.
Proof.
  revert s t. induction n as [|n IH]; intros s t; [reflexivity|].
  cbn [rewrite_rounds]. now rewrite one_round_app, IH.
Qed.

Lemma one_round_alphabet (s : string) :
  all_chars turtle_reads s = true ->
  all_chars turtle_reads (one_round s) = true.
Proof.
  induction s as [|ch s IH]; [reflexivity|].
  cbn [all_chars]. intros H. apply andb_true_iff in H. destruct H as [Hch Hs].
  rewrite one_round_cons, all_chars_app, (IH Hs), andb_true_r.
  destruct (Ascii.eqb ch "A"); [reflexivity|].
  destruct (Ascii.eqb ch "B"); [reflexivity|].
  cbn. now rewrite Hch.
Qed.

Lemma rewrite_rounds_alphabet (n : nat) (s : string) :
  all_chars turtle_reads s = true ->
  all_chars turtle_reads (rewrite_rounds n s) = true.
Proof.
  revert s. induction n as [|n IH]; intros s Hs; [exact Hs|].
  cbn [rewrite_rounds]. now apply IH, one_round_alphabet.
Qed.

(** X1: whatever the order, [lsystem_instructions] returns a string made of
    the four characters [A], [B], [+] and [-] only. *)
Theorem lsystem_alphabet (order : Z) :
  all_chars turtle_reads (lsystem_instructions order) = true.
Proof.
  unfold lsystem_instructions. now apply rewrite_rounds_alphabet.
Qed.

Lemma one_round_length (s : string) :
  String.length (one_round s) = (String.length s + 14 * count_AB s)%nat.
Proof.
  induction s as [|ch s IH]; [reflexivity|].
  rewrite one_round_cons, string_length_app, IH. cbn [String.length count_AB].
  destruct (Ascii.eqb ch "A"); [cbn; lia|].
  destruct (Ascii.eqb ch "B"); cbn; lia.
Qed.

Lemma rewrite_rounds_length (n : nat) (s : string) :
  (3 * String.length (rewrite_rounds n s) + 7 * count_AB s
   = 3 * String.length s + 7 * count_AB s * 7 ^ n)%nat.
Proof.
  revert s. induction n as [|n IH]; intros s.
  - cbn. lia.
  - cbn [rewrite_rounds]. specialize (IH (one_round s)).
    rewrite GosperFacts.count_AB_rewrite, one_round_length in IH.
    rewrite Nat.pow_succ_r'. nia.
Qed.

(** X2: for every order [n >= 0] the instruction string has
    [(7 ^ (n + 1) - 4) / 3] characters. *)
Theorem lsystem_length (n : Z) :
  (0 <= n)%Z ->
  (3 * Z.of_nat (String.length (lsystem_instructions n)) = 7 ^ (n + 1) - 4)%Z.
Proof.
  intros Hn. unfold lsystem_instructions.
  pose proof (rewrite_rounds_length (Z.to_nat n) "A") as H.
  change (count_AB "A") with 1%nat in H.
  change (String.length "A") with 1%nat in H.
  apply (f_equal Z.of_nat) in H.
  rewrite !Nat2Z.inj_add, !Nat2Z.inj_mul, Nat2Z.inj_pow in H.
  rewrite Z2Nat.id in H by exact Hn.
  rewrite Z.pow_add_r, Z.pow_1_r by lia. lia.
Qed.

Lemma lsystem_length_witness :
  (3 * Z.of_nat (String.length (lsystem_instructions 2)) = 7 ^ (2 + 1) - 4)%Z.
Proof. apply (lsystem_length 2). lia. Defined.

Lemma one_round_count_char (c : ascii) (k : nat) (s : string) :
  Ascii.eqb "A" c = false -> Ascii.eqb "B" c = false ->
  count_char c RULE_A = k -> count_char c RULE_B = k ->
  count_char c (one_round s) = (count_char c s + k * count_AB s)%nat.
Proof.
  intros HA HB HkA HkB. induction s as [|ch s IH]; [cbn; lia|].
  rewrite one_round_cons, count_char_app, IH. cbn [count_char count_AB].
  destruct (Ascii.eqb ch "A") eqn:EA.
  { apply Ascii.eqb_eq in EA. subst ch. rewrite HA, HkA. cbn. lia. }
  destruct (Ascii.eqb ch "B") eqn:EB.
  { apply Ascii.eqb_eq in EB. subst ch. rewrite HB, HkB. cbn. lia. }
  cbn. lia.
Qed.

Lemma rewrite_rounds_count_turns (c : ascii) (n : nat) (s : string) :
  Ascii.eqb "A" c = false -> Ascii.eqb "B" c = false ->
  count_char c RULE_A = 4%nat -> count_char c RULE_B = 4%nat ->
  (3 * count_char c (rewrite_rounds n s) + 2 * count_AB s
   = 3 * count_char c s + 2 * count_AB s * 7 ^ n)%nat.
Proof.
  intros HA HB HkA HkB. revert s. induction n as [|n IH]; intros s.
  - cbn. lia.
  - cbn [rewrite_rounds]. specialize (IH (one_round s)).
    rewrite GosperFacts.count_AB_rewrite in IH.
    rewrite (one_round_count_char c 4 s HA HB HkA HkB) in IH.
    rewrite Nat.pow_succ_r'. nia.
Qed.

(** X3: for every order [n >= 0] the instructions hold as many left turns
    [+] as right turns [-], namely [2 * (7 ^ n - 1) / 3] of each. *)
Theorem lsystem_turns_balance (n : Z) :
  (0 <= n)%Z ->
  count_char "+" (lsystem_instructions n)
  = count_char "-" (lsystem_instructions n) /\
  (3 * Z.of_nat (count_char "+" (lsystem_instructions n)) = 2 * (7 ^ n - 1))%Z.
Proof.
  intros Hn. unfold lsystem_instructions.
  pose proof (rewrite_rounds_count_turns "+" (Z.to_nat n) "A"
                eq_refl eq_refl eq_refl eq_refl) as Hp.
  pose proof (rewrite_rounds_count_turns "-" (Z.to_nat n) "A"
                eq_refl eq_refl eq_refl eq_refl) as Hm.
  change (count_AB "A") with 1%nat in Hp, Hm.
  change (count_char "+" "A") with 0%nat in Hp.
  change (count_char "-" "A") with 0%nat in Hm.
  split; [lia|].
  apply (f_equal Z.of_nat) in Hp.
  rewrite !Nat2Z.inj_add, !Nat2Z.inj_mul, Nat2Z.inj_pow in Hp.
  rewrite Z2Nat.id in Hp by exact Hn. lia.
Qed.

Lemma lsystem_turns_balance_witness :
  count_char "+" (lsystem_instructions 2)
  = count_char "-" (lsystem_instructions 2) /\
  (3 * Z.of_nat (count_char "+" (lsystem_instructions 2)) = 2 * (7 ^ 2 - 1))%Z.
Proof. apply (lsystem_turns_balance 2). lia. Defined.

Lemma next_order_extends (n : nat) :
  exists rest,
    rewrite_rounds (S n) "A" = (rewrite_rounds n "A" ++ rest)%string.
Proof.
  exists (rewrite_rounds n "-B--B+A++AA+B-").
  cbn [rewrite_rounds].
  change (one_round "A") with ("A" ++ "-B--B+A++AA+B-")%string.
  apply rewrite_rounds_app.
Qed.

Lemma later_order_extends (m k : nat) :
  exists rest,
    rewrite_rounds (m + k) "A" = (rewrite_rounds m "A" ++ rest)%string.
Proof.
  induction k as [|k [rest IH]].
  - exists EmptyString. rewrite Nat.add_0_r.
    induction (rewrite_rounds m "A") as [|ch s IHs]; cbn;
      [reflexivity | now rewrite <- IHs].
  - destruct (next_order_extends (m + k)) as [rest' E].
    exists (rest ++ rest')%string.
    rewrite Nat.add_succ_r, E, IH. apply string_app_assoc.
Qed.

(** X4: the instructions of an order are the beginning of the instructions
    of every higher order: for [0 <= m <= n], [lsystem_instructions n]
    starts with [lsystem_instructions m]. *)
Theorem lsystem_orders_nest (m n : Z) :
  (0 <= m)%Z -> (m <= n)%Z ->
  exists rest,
    lsystem_instructions n = (lsystem_instructions m ++ rest)%string.
Proof.
  intros Hm Hmn. unfold lsystem_instructions.
  replace (Z.to_nat n) with (Z.to_nat m + Z.to_nat (n - m))%nat by lia.
  apply later_order_extends.
Qed.

Lemma lsystem_orders_nest_witness :
  exists rest,
    lsystem_instructions 2 = (lsystem_instructions 1 ++ rest)%string.
Proof. apply (lsystem_orders_nest 1 2); lia. Defined.

End LsystemMore.

(** ** More on the turtle *)

Module TurtleMore.

Import Gosper Pipeline.

Section AnyNumpy.

Variables np_cos np_sin np_radians : float -> float.

Local Abbreviation loop := (turtle_loop np_cos np_sin).

Lemma turtle_loop_app (turn step : float) (s t : string) (st : turtle) :
  loop turn step (s ++ t)%string st = loop turn step t (loop turn step s st).
Proof.
  revert st. induction s as [|ch s IH]; intros st; [reflexivity|].
  cbn [String.append turtle_loop]. apply IH.
Qed.

Lemma turtle_step_ignores (turn step : float) (st : turtle) (ch : ascii) :
  turtle_reads ch = false -> turtle_step np_cos np_sin turn step st ch = st.
Proof.
  unfold turtle_reads, turtle_step. intros H.
  apply orb_false_iff in H. destruct H as [H Hminus].
  apply orb_false_iff in H. destruct H as [H Hplus].
  now rewrite H, Hplus, Hminus.
Qed.

Lemma turtle_step_B_as_A (turn step : float) (st : turtle) (ch : ascii) :
  Ascii.eqb ch "A" || Ascii.eqb ch "B" = true ->
  turtle_step np_cos np_sin turn step st "A"
  = turtle_step np_cos np_sin turn step st ch.
Proof.
  unfold turtle_step. intros ->. reflexivity.
Qed.

Lemma turtle_loop_moves_and_turns (turn step : float) (s : string)
  (st : turtle) :
  loop turn step (moves_and_turns s) st = loop turn step s st.
Proof.
  revert st. induction s as [|ch s IH]; intros st; [reflexivity|].
  cbn [moves_and_turns turtle_loop].
  destruct (Ascii.eqb ch "A" || Ascii.eqb ch "B") eqn:Hmove.
  { cbn [turtle_loop]. rewrite (turtle_step_B_as_A turn step st ch Hmove).
    apply IH. }
  destruct (Ascii.eqb ch "+" || Ascii.eqb ch "-") eqn:Hturn.
  { cbn [turtle_loop]. apply IH. }
  rewrite turtle_step_ignores; [apply IH|].
  unfold turtle_reads. apply orb_false_iff in Hturn.
  destruct Hturn as [Hp Hm]. rewrite <- orb_assoc, Hmove. cbn.
  now rewrite Hp, Hm.
Qed.

(** X5: the path depends on the moves and turns only: a [B] moves the
    turtle as an [A] does, and a character that is none of [A], [B], [+],
    [-] is skipped. *)
Theorem turtle_path_reads_moves_and_turns (instr : string) (step : float) :
  turtle_path np_cos np_sin np_radians (moves_and_turns instr) step
  = turtle_path np_cos np_sin np_radians instr step.
Proof.
  unfold turtle_path. now rewrite turtle_loop_moves_and_turns.
Qed.

(** X6: points are only ever appended: the path of [s ++ t] is the path of
    [s] followed by one point per [A] or [B] of [t], whatever else [t]
    holds; the path of the empty string is the start point alone. *)
Theorem turtle_path_extends (s t : string) (step : float) :
  turtle_path np_cos np_sin np_radians EmptyString step
  = [(0.0%float, 0.0%float)] /\
  exists more,
    turtle_path np_cos np_sin np_radians (s ++ t)%string step
    = turtle_path np_cos np_sin np_radians s step ++ more /\
    List.length more = count_AB t.
Proof.
  split; [reflexivity|].
  unfold turtle_path. rewrite turtle_loop_app.
  apply GosperFacts.turtle_loop_appends.
Qed.

End AnyNumpy.

End TurtleMore.

(** ** More on fit_to_viewbox *)

Module FitMore.

Import Gosper.

Section AnyArithmetic.

Context {F : Type} `{Arith F}.

(** The fitted points are the images of the input points, one by one. *)
Lemma fit_to_viewbox_maps (points out : list (F * F)) (size : Z) (margin : F) :
  fit_to_viewbox points size margin = Ok out ->
  exists f, out = map f points.
Proof.
  destruct points as [|p ps]; [discriminate|].
  unfold fit_to_viewbox, to_float. cbn [map py_min py_max bind].
  destruct (of_int size) as [fsize|]; [|discriminate].
  cbn [bind]. intros [= <-].
  match goal with
  | |- exists f, _ :: map ?g _ = _ => exists g
  end.
  reflexivity.
Qed.

End AnyArithmetic.

(** X7: [fit_to_viewbox] raises [ValueError] exactly on the empty list,
    whatever the size and margin; it raises [OverflowError] exactly when the
    list is not empty and [size] does not convert to float; in every other
    case it returns a list. *)
Theorem fit_to_viewbox_errors (points : list (float * float)) (size : Z)
  (margin : float) :
  (fit_to_viewbox points size margin = Raise ValueError <-> points = []) /\
  (fit_to_viewbox points size margin = Raise OverflowError
   <-> points <> [] /\ @of_int float float_arith size = None) /\
  ((exists out, fit_to_viewbox points size margin = Ok out)
   <-> points <> [] /\ @of_int float float_arith size <> None).
Proof.
  assert (Hcases :
    (points = [] /\ fit_to_viewbox points size margin = Raise ValueError) \/
    (points <> [] /\ @of_int float float_arith size = None /\
     fit_to_viewbox points size margin = Raise OverflowError) \/
    (points <> [] /\ @of_int float float_arith size <> None /\
     exists out, fit_to_viewbox points size margin = Ok out)).
  { destruct points as [|p ps]; [left; split; reflexivity|]. right.
    destruct (@of_int float float_arith size) as [fsize|] eqn:E.
    - right. repeat split; try discriminate.
      destruct (FitFacts.fit_to_viewbox_returns (p :: ps) size margin)
        as [out [Eout _]]; [discriminate | now rewrite E |].
      now exists out.
    - left. repeat split; try discriminate.
      now apply FitFacts.fit_to_viewbox_overflow. }
  destruct Hcases as [[Hp E] | [[Hp [Hs E]] | [Hp [Hs [out E]]]]];
    rewrite E; repeat split; intros;
    repeat match goal with
           | H : exists _, _ |- _ => destruct H
           | H : _ /\ _ |- _ => destruct H
           end;
    try discriminate; try congruence; eauto.
Qed.

(** X8: the fitted list keeps the order and the repetitions of the input:
    two positions that hold the same input point hold the same output
    point (a closed curve stays closed). *)
Theorem fit_to_viewbox_keeps_equal_points (points out : list (float * float))
  (size : Z) (margin : float) (i j : nat) :
  fit_to_viewbox points size margin = Ok out ->
  nth_error points i = nth_error points j ->
  nth_error out i = nth_error out j.
Proof.
  intros Hfit Hij. destruct (fit_to_viewbox_maps _ _ _ _ Hfit) as [f ->].
  now rewrite !nth_error_map, Hij.
Qed.

Lemma fit_to_viewbox_keeps_equal_points_witness :
  nth_error [(32, 512); (992, 512); (32, 512)]%float 0
  = nth_error [(32, 512); (992, 512); (32, 512)]%float 2.
Proof.
  apply (fit_to_viewbox_keeps_equal_points
           [(1, 2); (3, 2); (1, 2)]%float
           [(32, 512); (992, 512); (32, 512)]%float 1024 32%float 0 2).
  - vm_compute. reflexivity.
  - reflexivity.
Defined.

End FitMore.

(** ** The path data *)

Module PathMore.

Import Gosper Pipeline.
Local Open Scope string_scope.

Lemma string_app_empty_r (s : string) : s ++ EmptyString = s.
Proof. induction s as [|ch s IH]; cbn; [reflexivity | now rewrite IH]. Qed.

Lemma rstrip_app_kept (chars s t : string) :
  rstrip chars t <> EmptyString ->
  rstrip chars (s ++ t) = s ++ rstrip chars t.
Proof.
  intros Ht. induction s as [|ch s IH]; [reflexivity|].
  cbn [String.append rstrip]. rewrite IH.
  destruct (s ++ rstrip chars t) as [|c r] eqn:E; [|reflexivity].
  destruct s; cbn in E; [contradiction | discriminate].
Qed.

Lemma rstrip_app_stripped (chars s t : string) :
  rstrip chars t = EmptyString ->
  rstrip chars (s ++ t) = rstrip chars s.
Proof.
  intros Ht. induction s as [|ch s IH]; [exact Ht|].
  cbn [String.append rstrip]. now rewrite IH.
Qed.

(** What [rstrip] returns is the beginning of its argument. *)
Lemma rstrip_prefix (chars s : string) :
  exists dropped, s = rstrip chars s ++ dropped.
Proof.
  induction s as [|ch s [dropped IH]]; [now exists EmptyString|].
  cbn [rstrip]. destruct (rstrip chars s) as [|c r].
  - destruct (mem_char ch chars).
    + now exists (String ch s).
    + exists s. reflexivity.
  - exists dropped. cbn [String.append]. f_equal. exact IH.
Qed.

(** What [rstrip] returns does not end with a character it strips. *)
Lemma rstrip_last (chars x s : string) (c : ascii) :
  rstrip chars x = s ++ String c EmptyString -> mem_char c chars = false.
Proof.
  revert s. induction x as [|ch x IH]; intros s; cbn [rstrip].
  - destruct s; discriminate.
  - destruct (rstrip chars x) as [|c' r] eqn:E.
    + destruct (mem_char ch chars) eqn:Hmem; [destruct s; discriminate|].
      destruct s as [|a s]; cbn.
      * intros [= <-]. exact Hmem.
      * intros [= _ Hs]. destruct s; discriminate.
    + destruct s as [|a s]; cbn; [discriminate|].
      intros [= _ Hs]. now apply (IH s).
Qed.

Lemma rstrip_without (c : ascii) (s : string) :
  count_char c s = 0%nat -> rstrip (String c EmptyString) s = s.
Proof.
  induction s as [|ch s IH]; [reflexivity|].
  cbn [count_char]. intros Hc.
  destruct (Ascii.eqb ch c) eqn:E; [discriminate|].
  cbn [rstrip]. rewrite IH by exact Hc.
  destruct s; [cbn; now rewrite E | reflexivity].
Qed.

Lemma count_char_split (c : ascii) (s t : string) :
  count_char c (s ++ t) = 0%nat -> count_char c s = 0%nat.
Proof.
  rewrite LsystemMore.count_char_app. lia.
Qed.

Lemma join_snoc (sep : string) (l : list string) (x : string) :
  l <> [] -> join sep (l ++ [x]) = join sep l ++ sep ++ x.
Proof.
  unfold join. induction l as [|a l IH]; intros Hne; [contradiction|].
  destruct l as [|b l]; [reflexivity|].
  change (String.concat sep ((a :: b :: l) ++ [x]))
    with (a ++ sep ++ String.concat sep ((b :: l) ++ [x])).
  rewrite IH by discriminate.
  change (String.concat sep (a :: b :: l))
    with (a ++ sep ++ String.concat sep (b :: l)).
  now rewrite !LsystemMore.string_app_assoc.
Qed.

Section AnyFormat.

Variable format_3f : float -> string.

(** X11: the path data is empty only for the empty list; for one point it
    is the single command [M x y]; and every further point appends one
    [ L x y] to the path data of the points before it. *)
Theorem svg_path_from_points_grows (points : list (float * float))
  (p q : float * float) :
  (svg_path_from_points format_3f points = EmptyString <-> points = []) /\
  svg_path_from_points format_3f [p]
  = "M " ++ fmt format_3f (fst p) ++ " " ++ fmt format_3f (snd p) /\
  (points <> [] ->
   svg_path_from_points format_3f (points ++ [q])
   = svg_path_from_points format_3f points
     ++ " L " ++ fmt format_3f (fst q) ++ " " ++ fmt format_3f (snd q)).
Proof.
  split; [|split; [reflexivity|]].
  - split; [|now intros ->].
    destruct points as [|p0 ps]; [reflexivity|].
    cbn. destruct (map _ ps); discriminate.
  - intros Hne. destruct points as [|p0 ps]; [contradiction|].
    unfold svg_path_from_points.
    change ((p0 :: ps) ++ [q])%list with (p0 :: (ps ++ [q]))%list.
    cbv zeta. cbn [List.app]. rewrite map_app. cbn [map].
    change (?a :: ?l ++ [?x])%list with ((a :: l) ++ [x])%list.
    rewrite join_snoc by discriminate. reflexivity.
Qed.

(** X12: [fmt] never returns a text that ends with a decimal point. *)
Theorem fmt_no_trailing_point (v : float) (s : string) :
  fmt format_3f v <> s ++ ".".
Proof.
  unfold fmt. intros E. apply rstrip_last in E. discriminate.
Qed.

(** X13: [fmt] removes zeros of the fractional part only.  When the
    formatted number is an integer part, a decimal point and a fractional
    part, [fmt] keeps the integer part as it is: it returns the integer
    part alone when the fractional part is all zeros, and otherwise the
    integer part, the point and the fractional part without its trailing
    zeros. *)
Theorem fmt_keeps_integer_part (v : float) (int_part frac_part : string) :
  format_3f v = int_part ++ "." ++ frac_part ->
  count_char "." int_part = 0%nat ->
  count_char "." frac_part = 0%nat ->
  fmt format_3f v
  = match rstrip "0" frac_part with
    | EmptyString => int_part
    | String c r => int_part ++ "." ++ String c r
    end.
Proof.
  intros Hformat Hint Hfrac. unfold fmt. rewrite Hformat.
  destruct (rstrip_prefix "0" frac_part) as [dropped Hprefix].
  destruct (rstrip "0" frac_part) as [|c r] eqn:Efrac.
  - rewrite <- LsystemMore.string_app_assoc.
    rewrite (rstrip_app_stripped "0" (int_part ++ ".") frac_part Efrac).
    rewrite (rstrip_app_kept "0" int_part ".") by discriminate.
    change (rstrip "0" ".") with ".".
    rewrite (rstrip_app_stripped "." int_part ".") by reflexivity.
    now apply rstrip_without.
  - rewrite <- LsystemMore.string_app_assoc.
    rewrite (rstrip_app_kept "0" (int_part ++ ".") frac_part)
      by (rewrite Efrac; discriminate).
    rewrite Efrac.
    assert (Hkept : rstrip "." (String c r) = String c r).
    { apply rstrip_without. rewrite Hprefix in Hfrac.
      now apply count_char_split in Hfrac. }
    rewrite (rstrip_app_kept "." (int_part ++ ".") (String c r))
      by (rewrite Hkept; discriminate).
    rewrite Hkept. apply LsystemMore.string_app_assoc.
Qed.

End AnyFormat.

Lemma svg_path_from_points_grows_witness :
  svg_path_from_points (fun _ => "1.500") ([(1, 2)]%float ++ [(3, 4)]%float)
  = "M 1.5 1.5 L 1.5 1.5".
Proof.
  apply (proj2 (proj2 (svg_path_from_points_grows
                         (fun _ => "1.500") [(1, 2)]%float
                         (1, 2)%float (3, 4)%float))).
  discriminate.
Defined.

Lemma fmt_keeps_integer_part_witness :
  fmt (fun _ => "100.500") 0%float = "100.5" /\
  fmt (fun _ => "-100.000") 0%float = "-100".
Proof.
  split.
  - apply (fmt_keeps_integer_part (fun _ => "100.500") 0%float "100" "500");
      reflexivity.
  - apply (fmt_keeps_integer_part (fun _ => "-100.000") 0%float "-100" "000");
      reflexivity.
Defined.

End PathMore.

(** ** The pipeline of main *)

Module MainMore.

Import Gosper Pipeline.

Section AnyRuntime.

Variable format_3f : float -> string.
Variables np_cos np_sin np_radians : float -> float.

Lemma order_checked (order : Z) :
  (order <? 0)%Z || (order >? 6)%Z = false <-> (0 <= order <= 6)%Z.
Proof.
  rewrite orb_false_iff, Z.ltb_ge. rewrite Z.gtb_ltb, Z.ltb_ge. lia.
Qed.

(** X14: what [main] computes before it draws.  It ends with [SystemExit]
    exactly when the order is outside [0..6]; otherwise the curve it hands
    to [fit_to_viewbox] is never empty, so [ValueError] cannot occur: the
    only exception left is [OverflowError], for a size that does not
    convert to float, and in every other case the fitted curve has
    [7 ^ order + 1] points and its path data starts with a move-to. *)
Theorem main_fits_the_whole_curve (order size : Z) :
  match main_points np_cos np_sin np_radians order size with
  | inl (SystemExit _) => (order < 0 \/ 6 < order)%Z
  | inl (Uncaught e) =>
      (0 <= order <= 6)%Z /\ e = OverflowError /\
      @of_int float float_arith size = None
  | inr pts =>
      (0 <= order <= 6)%Z /\ @of_int float float_arith size <> None /\
      Z.of_nat (List.length pts) = (7 ^ order + 1)%Z /\
      exists rest,
        main_path_d format_3f np_cos np_sin np_radians order size
        = inr ("M " ++ rest)%string
  end.
Proof.
  unfold main_path_d, main_points.
  destruct ((order <? 0)%Z || (order >? 6)%Z) eqn:Hcheck.
  { apply orb_true_iff in Hcheck. rewrite Z.gtb_ltb in Hcheck.
    destruct Hcheck as [H|H]; apply Z.ltb_lt in H; lia. }
  apply order_checked in Hcheck.
  destruct (GosperFacts.turtle_path_shape np_cos np_sin np_radians
              (lsystem_instructions order) 10.0%float) as [visited [E L]].
  rewrite E.
  destruct (@of_int float float_arith size) as [fsize|] eqn:Esize.
  - destruct (FitFacts.fit_to_viewbox_returns
                ((0.0%float, 0.0%float) :: visited) size 32.0%float)
      as [out [Eout Lout]]; [discriminate | now rewrite Esize |].
    rewrite Eout. repeat split; try lia; try discriminate.
    + rewrite Lout. cbn [List.length]. rewrite L.
      unfold lsystem_instructions. rewrite GosperFacts.count_AB_rounds.
      change (count_AB "A") with 1%nat. rewrite Nat.mul_1_r.
      rewrite Nat2Z.inj_succ, Nat2Z.inj_pow, Z2Nat.id by lia. lia.
    + destruct out as [|p out]; [discriminate|].
      cbn. destruct (map _ out); eexists; reflexivity.
  - rewrite (FitFacts.fit_to_viewbox_overflow _ _ size 32.0%float Esize).
    repeat split; lia.
Qed.

End AnyRuntime.

End MainMore.

(** ** The smoke test *)

Module CellsTestFacts.

Import CellsTest.

Lemma all_zip_equal_iff (cells expected : list string) :
  all_zip_equal cells expected = true
  <-> (exists more, expected = cells ++ more) \/
      (exists more, cells = expected ++ more).
Proof.
  unfold all_zip_equal. revert expected.
  induction cells as [|c cells IH]; intros expected.
  - split; [left; now exists expected | reflexivity].
  - destruct expected as [|e expected].
    + split; [right; now exists (c :: cells) | reflexivity].
    + cbn [combine forallb fst snd]. rewrite andb_true_iff, String.eqb_eq, IH.
      split.
      * intros [-> [[more ->]|[more ->]]];
          [left | right]; now exists more.
      * intros [[more [= -> ->]]|[more [= -> ->]]];
          (split; [reflexivity|]); [left | right]; now exists more.
Qed.

(** X15: the assertion of [test_cells_smoke] holds exactly when the names
    returned and the four expected names agree as far as the shorter of
    the two lists goes: [zip] stops there, so a shorter list of cells (the
    empty one included) and a longer one both pass. *)
Theorem test_cells_assertion_compares_a_prefix (cells : list string) :
  (test_cells_assertion cells = true
   <-> (exists missing, expected_cells = cells ++ missing) \/
       (exists more, cells = expected_cells ++ more)) /\
  test_cells_assertion [] = true /\
  (forall more, test_cells_assertion (expected_cells ++ more) = true).
Proof.
  split; [apply all_zip_equal_iff|]. split; [reflexivity|].
  intros more. apply all_zip_equal_iff. right. now exists more.
Qed.

End CellsTestFacts.
